(** * tgo/filters: the update filter combinators

    A shallow embedding of [filters/filter.go].  A filter wraps a Go closure
    [func(update *tgo.Update) bool].  Two effects of the Go code are kept
    explicit:

    - a closure may read memory it captured by reference (the filter built
      by [Commands] keeps the caller's [[]string] slice), so a check reads a
      store of string arrays;
    - a field access through a nil pointer is a run-time panic, so a check
      yields an [outcome] rather than a bare boolean. *)

From Stdlib Require Import ZArith Ascii String.
From stdpp Require Import gmap strings list fin_maps.

Local Open Scope Z_scope.

(** ** Outcomes of a Go call *)

Inductive RuntimeError : Type :=
  | NilDereference.

Inductive outcome (A : Type) : Type :=
  | Return (a : A)
  | Panic (e : RuntimeError).

Arguments Return {A} a.
Arguments Panic {A} e.

Definition bind {A B : Type} (m : outcome A) (k : A -> outcome B) : outcome B :=
  match m with
  | Return a => k a
  | Panic e => Panic e
  end.

Notation "'let!' x ':=' m 'in' k" := (bind m (fun x => k))
  (at level 10, x name, m at level 100, k at level 200).

Definition returns {A : Type} (m : outcome A) : Prop := exists a, m = Return a.

(** ** The store: backing arrays of [[]string] values *)

Definition loc := positive.

Abbreviation Heap := (gmap loc (list string)).

(** A Go slice is a window into a backing array.  The nil slice has length
    0, whatever its other fields. *)
Record Slice : Type := mkSlice {
  slice_arr : loc;
  slice_off : nat;
  slice_len : nat
}.

Definition backing (h : Heap) (s : Slice) : list string :=
  default [] (h !! slice_arr s).

(** The window lies within the backing array: what Go guarantees of every
    slice value. *)
Definition slice_ok (h : Heap) (s : Slice) : Prop :=
  (slice_off s + slice_len s <= length (backing h s))%nat.

(** The elements [s[0], ..., s[len(s)-1]], as a [range] loop visits them. *)
Definition slice_elems (h : Heap) (s : Slice) : list string :=
  take (slice_len s) (drop (slice_off s) (backing h s)).

(** [s[i]] *)
Definition slice_get (h : Heap) (s : Slice) (i : nat) : option string :=
  if decide (i < slice_len s)%nat then backing h s !! (slice_off s + i)%nat else None.

(** [s[i] = v] *)
Definition slice_set (h : Heap) (s : Slice) (i : nat) (v : string) : Heap :=
  alter (fun a => <[(slice_off s + i)%nat := v]> a) (slice_arr s) h.

(** ** The update and its payloads (package [tgo]) *)

Record User : Type := mkUser {
  User_Id : Z                          (* int64 *)
}.

(** [From] is a [*User]: [None] is the nil pointer. *)
Record Message : Type := mkMessage {
  Message_Text : string;
  Message_Caption : string;
  Message_From : option User
}.

Record CallbackQuery : Type := mkCallbackQuery {
  CallbackQuery_Data : string;
  CallbackQuery_From : option User
}.

Record InlineQuery : Type := mkInlineQuery {
  InlineQuery_Query : string
}.

(** Modelled from the spec: the type [tgo.Update] is declared outside
    [filters/filter.go].  It is a tagged union over payload kinds
    (Message, CallbackQuery, InlineQuery, and further kinds the filters do
    not inspect), with at most one variant populated. *)
Inductive Update : Type :=
  | UpdateMessage (m : Message)
  | UpdateCallbackQuery (c : CallbackQuery)
  | UpdateInlineQuery (q : InlineQuery)
  | UpdateOther (kind : string)
  | UpdateEmpty.

(** The dynamic value of the [any] that [ExtractUpdate] returns, as the
    type switches of the filters see it. *)
Inductive Payload : Type :=
  | PMessage (m : Message)
  | PCallbackQuery (c : CallbackQuery)
  | PInlineQuery (q : InlineQuery)
  | POther (kind : string)
  | PNil.

(** Modelled from the spec: [ExtractUpdate] is defined outside
    [filters/filter.go].  It returns the single populated payload of the
    update, or the nil value when none is populated. *)
Definition ExtractUpdate (update : Update) : Payload :=
  match update with
  | UpdateMessage m => PMessage m
  | UpdateCallbackQuery c => PCallbackQuery c
  | UpdateInlineQuery q => PInlineQuery q
  | UpdateOther kind => POther kind
  | UpdateEmpty => PNil
  end.

(** ** Filters *)

Definition FilterFunc : Type := Heap -> Update -> outcome bool.

Record Filter : Type := mkFilter { f : FilterFunc }.

Definition Check (flt : Filter) (h : Heap) (update : Update) : outcome bool :=
  f flt h update.

Definition NewFilter (fn : FilterFunc) : Filter := {| f := fn |}.

(** The loop of [Or]: the first filter that passes ends it.  The filters
    are those the variadic slice holds; the claims build it from the
    arguments of the call, so it is a list here. *)
Fixpoint Or_loop (filters : list Filter) (h : Heap) (update : Update) : outcome bool :=
  match filters with
  | [] => Return false
  | filter :: rest =>
      let! b := Check filter h update in
      if b then Return true else Or_loop rest h update
  end.

Definition Or (filters : list Filter) : Filter := NewFilter (Or_loop filters).

(** The loop of [And]: the first filter that fails ends it. *)
Fixpoint And_loop (filters : list Filter) (h : Heap) (update : Update) : outcome bool :=
  match filters with
  | [] => Return true
  | filter :: rest =>
      let! b := Check filter h update in
      if negb b then Return false else And_loop rest h update
  end.

Definition And (filters : list Filter) : Filter := NewFilter (And_loop filters).

Definition Not (filter : Filter) : Filter :=
  NewFilter (fun h update => let! b := Check filter h update in Return (negb b)).

(** The final loop of [Whitelist]: [id == senderID] for each id in turn.
    The ids are [int64] values that are only compared, never computed with:
    integers of [Z]. *)
Fixpoint id_loop (IDs : list Z) (senderID : Z) : bool :=
  match IDs with
  | [] => false
  | id :: rest => if id =? senderID then true else id_loop rest senderID
  end.

(** The type switch of [Whitelist]: the sender id to compare, [None] for
    the [default] case that returns false at once. *)
Definition sender_of (p : Payload) : outcome (option Z) :=
  match p with
  | PMessage data =>
      (* var senderID int64; if data.From != nil { senderID = data.From.Id } *)
      match Message_From data with
      | Some u => Return (Some (User_Id u))
      | None => Return (Some 0)
      end
  | PCallbackQuery data =>
      (* senderID = data.From.Id *)
      match CallbackQuery_From data with
      | Some u => Return (Some (User_Id u))
      | None => Panic NilDereference
      end
  | _ => Return None
  end.

Definition Whitelist (IDs : list Z) : Filter :=
  NewFilter (fun _ update =>
    let! sender := sender_of (ExtractUpdate update) in
    match sender with
    | Some senderID => Return (id_loop IDs senderID)
    | None => Return false
    end).

Definition Blacklist (IDs : list Z) : Filter := Not (Whitelist IDs).

(** ** Commands *)

(** [strings.HasPrefix(s, prefix)] *)
Definition HasPrefix (s prefix : string) : bool := String.prefix prefix s.

(** Go's [strings.ToLower] on the ASCII range: the letters A-Z are mapped to
    a-z, every other byte is kept. *)
Definition ascii_lower (c : ascii) : ascii :=
  let n := nat_of_ascii c in
  if ((65 <=? n) && (n <=? 90))%nat then ascii_of_nat (n + 32) else c.

Fixpoint ascii_ToLower (s : string) : string :=
  match s with
  | EmptyString => EmptyString
  | String c rest => String (ascii_lower c) (ascii_ToLower rest)
  end.

(** [variadic args] is the slice Go builds for a call [fn(a1, ..., an)] of
    a variadic function: a freshly allocated array holding the arguments. *)
Definition variadic (args : list string) (h : Heap) : Heap * Slice :=
  let l := fresh (dom h) in
  (<[l := args]> h, mkSlice l 0 (length args)).

Section commands.

(** [strings.ToLower] belongs to Go's standard library and is Unicode
    aware; the filters only apply it, so it is a parameter here, and
    [ascii_ToLower] instantiates it on ASCII text. *)
Variable ToLower : string -> string.

(** The normalized form of a command: prefixed, then lower-cased. *)
Definition normalized (prefix command : string) : string :=
  ToLower (prefix +:+ command).

(** The body of the first loop of [Commands]:
    [cmds[index] = strings.ToLower(prefix + command)]. *)
Definition normalize_step (prefix : string) (cmds : Slice) (h : Heap) (index : nat) : Heap :=
  match slice_get h cmds index with
  | Some command => slice_set h cmds index (ToLower (prefix +:+ command))
  | None => h
  end.

(** [for index, command := range cmds { ... }] *)
Definition normalize (prefix : string) (cmds : Slice) (h : Heap) : Heap :=
  foldl (normalize_step prefix cmds) h (seq 0 (slice_len cmds)).

(** The condition of the second loop of [Commands]. *)
Definition cmd_matches (text cmd botUsername : string) : bool :=
  (text =? cmd)%string
  || (text =? cmd +:+ botUsername)%string
  || HasPrefix text (cmd +:+ " ")
  || HasPrefix text ((cmd +:+ botUsername) +:+ " ").

(** [for _, cmd := range cmds { if ... { return true } }] *)
Fixpoint cmd_loop (cmds : list string) (text botUsername : string) : bool :=
  match cmds with
  | [] => false
  | cmd :: rest =>
      if cmd_matches text cmd botUsername then true
      else cmd_loop rest text botUsername
  end.

(** [if !strings.HasPrefix(botUsername, "@") { botUsername = "@" + botUsername }] *)
Definition at_username (botUsername : string) : string :=
  if negb (HasPrefix botUsername "@") then "@" +:+ botUsername else botUsername.

(** The closure that [Commands] returns.  It keeps the slice [cmds], not
    a copy of its elements: each check reads them from the store. *)
Definition Commands_check (botUsername : string) (cmds : Slice) : FilterFunc :=
  fun h update =>
    match ExtractUpdate update with
    | PMessage msg =>
        let text := Message_Text msg in
        let text := if (text =? "")%string then Message_Caption msg else text in
        if cmd_loop (slice_elems h cmds) text botUsername then Return true
        else Return false
    | _ => Return false
    end.

(** [Commands(prefix, botUsername, cmds...)]: the store after the call and
    the filter built. *)
Definition Commands (prefix botUsername : string) (cmds : Slice) (h : Heap)
  : Heap * Filter :=
  let h := normalize prefix cmds h in
  let botUsername := at_username botUsername in
  (h, NewFilter (Commands_check botUsername cmds)).

(** [Command(cmd, botUsername)] calls [Commands("/", botUsername, cmd)]. *)
Definition Command (cmd botUsername : string) (h : Heap) : Heap * Filter :=
  let '(h, cmds) := variadic [cmd] h in
  Commands "/" botUsername cmds h.

End commands.

(** ** The constant filters and the text filters *)

(** [True()] and [False()], under the names of the source. *)
Module Always.

Definition True : Filter := NewFilter (fun _ _ => Return true).

Definition False : Filter := NewFilter (fun _ _ => Return false).

End Always.

(** Modelled from the spec: [ExtractUpdateText] is defined outside
    [filters/filter.go].  It gives the text of a Message, or its caption when
    the text is empty; the data of a CallbackQuery; the query of an
    InlineQuery; the empty string for any other kind. *)
Definition ExtractUpdateText (update : Update) : string :=
  match ExtractUpdate update with
  | PMessage data =>
      if (Message_Text data =? "")%string then Message_Caption data
      else Message_Text data
  | PCallbackQuery data => CallbackQuery_Data data
  | PInlineQuery data => InlineQuery_Query data
  | _ => ""
  end.

(** [strings.HasSuffix(s, suffix)]:
    [len(s) >= len(suffix) && s[len(s)-len(suffix):] == suffix]. *)
Definition HasSuffix (s suffix : string) : bool :=
  (String.length suffix <=? String.length s)%nat
  && (substring (String.length s - String.length suffix) (String.length suffix) s
      =? suffix)%string.

Definition Text (text : string) : Filter :=
  NewFilter (fun _ update => Return (ExtractUpdateText update =? text)%string).

(** The loop of [Texts]: [raw == text] for each text in turn. *)
Fixpoint text_loop (texts : list string) (raw : string) : bool :=
  match texts with
  | [] => false
  | text :: rest => if (raw =? text)%string then true else text_loop rest raw
  end.

Definition Texts (texts : list string) : Filter :=
  NewFilter (fun _ update =>
    let raw := ExtractUpdateText update in
    Return (text_loop texts raw)).

Definition WithPrefix (prefix : string) : Filter :=
  NewFilter (fun _ update => Return (HasPrefix (ExtractUpdateText update) prefix)).

Definition WithSuffix (suffix : string) : Filter :=
  NewFilter (fun _ update => Return (HasSuffix (ExtractUpdateText update) suffix)).

(** [s] ends with [p]. *)
Definition ends_with (s p : string) : Prop := exists front, s = front +:+ p.

(** The filters that spell out the four ways a text matches the command
    [cmd]. *)
Definition command_filters (botUsername cmd : string) : list Filter :=
  [Text cmd; Text (cmd +:+ botUsername);
   WithPrefix (cmd +:+ " "); WithPrefix ((cmd +:+ botUsername) +:+ " ")].

(** ** Reading the update, as the claims speak of it *)

(** The sender of an update, when it has one. *)
Definition sender (update : Update) : option Z :=
  match ExtractUpdate update with
  | PMessage m => User_Id <$> Message_From m
  | PCallbackQuery c => User_Id <$> CallbackQuery_From c
  | _ => None
  end.

(** An update with no resolvable sender: a Message whose [From] is absent,
    or an update of a kind other than Message and CallbackQuery. *)
Definition senderless (update : Update) : Prop :=
  match ExtractUpdate update with
  | PMessage m => Message_From m = None
  | PCallbackQuery _ => False
  | _ => True
  end.

Definition is_Message (update : Update) : Prop :=
  exists m, ExtractUpdate update = PMessage m.

(** The text that [Commands] matches: the text of a message, its caption
    when the text is empty. *)
Definition command_text (m : Message) : string :=
  if (Message_Text m =? "")%string then Message_Caption m else Message_Text m.

(** The bot user name with a leading "@": as given when it has one, with
    one put in front otherwise. *)
Definition with_at (botUsername : string) : string :=
  match botUsername with
  | String "@"%char _ => botUsername
  | _ => "@" +:+ botUsername
  end.

(** [s] starts with [p]. *)
Definition starts_with (s p : string) : Prop := exists rest, s = p +:+ rest.

(** The four ways a text matches a command. *)
Definition matches_command (text command botUsername : string) : Prop :=
  text = command
  \/ text = command +:+ botUsername
  \/ starts_with text (command +:+ " ")
  \/ starts_with text ((command +:+ botUsername) +:+ " ").

(** The array [a] with [g] applied to the [len] elements from [off] on. *)
Definition map_window (g : string -> string) (off len : nat) (a : list string) : list string :=
  take off a ++ (g <$> take len (drop off a)) ++ drop (off + len) a.

(** ** Sample updates *)

Definition message_from (text : string) (id : Z) : Update :=
  UpdateMessage (mkMessage text "" (Some (mkUser id))).

(** A message the platform sent with no [from] field (a channel post). *)
Definition message_without_From (text : string) : Update :=
  UpdateMessage (mkMessage text "" None).

Definition callback_without_From : Update :=
  UpdateCallbackQuery (mkCallbackQuery "data" None).

Definition inline_query (query : string) : Update :=
  UpdateInlineQuery (mkInlineQuery query).

(** ** A sample store *)

(** One array of four strings; [sample_cmds] is its middle part,
    [arr[1:3]]. *)
Definition sample_store : Heap :=
  {[ 1%positive := ["Pre"; "Start"; "HELP"; "Post"] ]}.

Definition sample_cmds : Slice := mkSlice 1%positive 1 2.

(** A slice that holds the single command "start". *)
Definition start_store : Heap := {[ 5%positive := ["start"] ]}.

Definition start_cmds : Slice := mkSlice 5%positive 0 1.

(** * Properties *)

(** ** The error monad *)

Lemma returns_Return {A : Type} (a : A) : returns (Return a).
Proof. exists a; reflexivity. Qed.

#[local] Hint Resolve returns_Return : core.

(** ** The combinators *)

(** C5: on every update, [And()] of no filter returns true and [Or()] of
    no filter returns false. *)
Theorem And_Or_empty (h : Heap) (update : Update) :
  Check (And []) h update = Return true /\ Check (Or []) h update = Return false.
Proof. split; reflexivity. Qed.

Lemma Check_Not (flt : Filter) (h : Heap) (update : Update) :
  Check (Not flt) h update = (let! b := Check flt h update in Return (negb b)).
Proof. reflexivity. Qed.

Lemma Check_And_cons (flt : Filter) (rest : list Filter) (h : Heap) (update : Update) :
  Check (And (flt :: rest)) h update =
  (let! b := Check flt h update in
   if negb b then Return false else Check (And rest) h update).
Proof. reflexivity. Qed.

Lemma Check_Or_cons (flt : Filter) (rest : list Filter) (h : Heap) (update : Update) :
  Check (Or (flt :: rest)) h update =
  (let! b := Check flt h update in
   if b then Return true else Check (Or rest) h update).
Proof. reflexivity. Qed.

(** C6: [And(f1, f2)] and [Not(Or(Not(f1), Not(f2)))] give the same outcome
    on every update, for all filters [f1] and [f2], a panic of [f1] or [f2]
    included: both sides run [f1], and run [f2] only when [f1] passed. *)
Theorem And_De_Morgan (f1 f2 : Filter) (h : Heap) (update : Update) :
  Check (And [f1; f2]) h update = Check (Not (Or [Not f1; Not f2])) h update.
Proof.
  rewrite Check_Not, !Check_And_cons, !Check_Or_cons, !Check_Not.
  destruct (Check f1 h update) as [[|]|e1]; simpl; try reflexivity.
  destruct (Check f2 h update) as [[|]|e2]; reflexivity.
Qed.

(** X4: the same law for lists of any length: [And] of any number of
    filters is [Not] of the [Or] of their negations, outcome for outcome. *)
Lemma And_De_Morgan_list (filters : list Filter) (h : Heap) (update : Update) :
  Check (And filters) h update = Check (Not (Or (Not <$> filters))) h update.
Proof.
  induction filters as [|flt rest IH]; [reflexivity|].
  rewrite fmap_cons, Check_Not, Check_And_cons, Check_Or_cons, Check_Not.
  rewrite IH, Check_Not.
  destruct (Check flt h update) as [[|]|e]; reflexivity.
Qed.

(** C7: [Not(Not(f))] gives the same outcome as [f] on every update. *)
Theorem Not_Not (flt : Filter) (h : Heap) (update : Update) :
  Check (Not (Not flt)) h update = Check flt h update.
Proof.
  rewrite !Check_Not.
  destruct (Check flt h update) as [b|e]; simpl; [|reflexivity].
  now rewrite negb_involutive.
Qed.

(** ** Whitelist and Blacklist *)

Lemma id_loop_true (IDs : list Z) (senderID : Z) :
  id_loop IDs senderID = true <-> senderID ∈ IDs.
Proof.
  induction IDs as [|id rest IH]; simpl.
  - split; [discriminate | intros H; inversion H].
  - rewrite elem_of_cons. destruct (Z.eqb_spec id senderID) as [->|Hne].
    + split; auto.
    + rewrite IH. split; [auto | intros [->|H]; [contradiction | exact H]].
Qed.

(** What [Check] of a whitelist computes, by the kind of the update. *)
Lemma Check_Whitelist (IDs : list Z) (h : Heap) (update : Update) :
  Check (Whitelist IDs) h update =
  match ExtractUpdate update with
  | PMessage data =>
      Return (id_loop IDs (default 0 (User_Id <$> Message_From data)))
  | PCallbackQuery data =>
      match CallbackQuery_From data with
      | Some u => Return (id_loop IDs (User_Id u))
      | None => Panic NilDereference
      end
  | _ => Return false
  end.
Proof.
  unfold Check, Whitelist; simpl.
  destruct (ExtractUpdate update) as [m|c|q|k|]; simpl; try reflexivity.
  - destruct (Message_From m); reflexivity.
  - destruct (CallbackQuery_From c); reflexivity.
Qed.

(** A whitelist matches an update with a sender exactly when the sender is
    among the IDs. *)
Lemma Whitelist_sender (IDs : list Z) (h : Heap) (update : Update) (id : Z) :
  sender update = Some id ->
  exists b, Check (Whitelist IDs) h update = Return b /\ (b = true <-> id ∈ IDs).
Proof.
  unfold sender. rewrite Check_Whitelist.
  destruct (ExtractUpdate update) as [m|c|q|k|]; try discriminate.
  - destruct (Message_From m) as [u|]; simpl; [intros [= <-] | discriminate].
    eexists; split; [reflexivity | apply id_loop_true].
  - destruct (CallbackQuery_From c) as [u|]; simpl; [intros [= <-] | discriminate].
    eexists; split; [reflexivity | apply id_loop_true].
Qed.

(** A whitelist on an update with no resolvable sender: the absent sender
    of a Message is compared as the id 0. *)
Lemma Whitelist_no_sender (IDs : list Z) (h : Heap) (update : Update) :
  senderless update ->
  exists b, Check (Whitelist IDs) h update = Return b
            /\ (b = true <-> is_Message update /\ 0 ∈ IDs).
Proof.
  unfold senderless, is_Message. rewrite Check_Whitelist.
  destruct (ExtractUpdate update) as [m|c|q|k|]; intros Hs;
    try (exists false; split; [reflexivity|];
         split; [discriminate | intros [[m' [=]] _]]).
  - rewrite Hs; simpl. eexists; split; [reflexivity|].
    rewrite id_loop_true. split; [eauto | tauto].
  - destruct Hs.
Qed.

(** C1 (as the code has it): on an update with no resolvable sender a
    whitelist returns, and it returns true exactly when the update is a
    Message (its [From] absent) and 0 is among the IDs: the absent sender is
    compared as the id 0.  So updates of a kind other than Message and
    CallbackQuery never match, whatever the IDs, and a Message without
    [From] never matches a list that does not hold 0, the empty list
    included. *)
Theorem Whitelist_senderless (IDs : list Z) (h : Heap) (update : Update) :
  senderless update ->
  exists b, Check (Whitelist IDs) h update = Return b
            /\ (b = true <-> is_Message update /\ 0 ∈ IDs)
            /\ (~ is_Message update -> b = false)
            /\ (0 ∉ IDs -> b = false).
Proof.
  intros Hs. destruct (Whitelist_no_sender IDs h update Hs) as (b & Hb & Hiff).
  exists b. split; [exact Hb|]. split; [exact Hiff|].
  split; intros Hn; destruct b; try reflexivity;
    destruct (proj1 Hiff eq_refl) as [Hm H0]; contradiction.
Qed.

Lemma Whitelist_senderless_witness :
  senderless (inline_query "2")
  /\ exists b, Check (Whitelist [1; 2; 3]) ∅ (inline_query "2") = Return b
               /\ (b = true <-> is_Message (inline_query "2") /\ 0 ∈ [1; 2; 3])
               /\ (~ is_Message (inline_query "2") -> b = false)
               /\ (0 ∉ [1; 2; 3] -> b = false).
Proof.
  split; [exact I|].
  apply (Whitelist_senderless [1; 2; 3] ∅ (inline_query "2")). exact I.
Defined.

(** C1 fails as stated: the message has no [From], and the whitelist of
    the single id 0 matches it. *)
Lemma Whitelist_zero_matches_senderless :
  senderless (message_without_From "hi")
  /\ Check (Whitelist [0]) ∅ (message_without_From "hi") = Return true.
Proof. split; reflexivity. Qed.

(** C9: a whitelist whose IDs hold 0 returns true on a Message whose [From]
    is absent. *)
Theorem Whitelist_zero_sentinel (IDs : list Z) (h : Heap) (update : Update) (m : Message) :
  0 ∈ IDs ->
  ExtractUpdate update = PMessage m ->
  Message_From m = None ->
  Check (Whitelist IDs) h update = Return true.
Proof.
  intros H0 Hm Hfrom. rewrite Check_Whitelist, Hm, Hfrom; simpl.
  f_equal. now apply id_loop_true.
Qed.

Lemma Whitelist_zero_sentinel_witness :
  Check (Whitelist [7; 0]) ∅ (message_without_From "hi") = Return true.
Proof.
  apply (Whitelist_zero_sentinel [7; 0] ∅ (message_without_From "hi")
           (mkMessage "hi" "" None)).
  - apply list_elem_of_In; simpl; auto.
  - reflexivity.
  - reflexivity.
Defined.

(** C10: [Check] of a whitelist panics exactly on a CallbackQuery whose
    [From] is nil (the Message branch has the nil guard and never panics);
    on every update that is not such a CallbackQuery it returns. *)
Theorem Whitelist_nil_From (IDs : list Z) (h : Heap) (update : Update) :
  (forall data, ExtractUpdate update = PCallbackQuery data ->
                CallbackQuery_From data = None ->
                Check (Whitelist IDs) h update = Panic NilDereference)
  /\ (forall data, ExtractUpdate update = PMessage data ->
                   returns (Check (Whitelist IDs) h update))
  /\ ((forall data, ExtractUpdate update = PCallbackQuery data ->
                    CallbackQuery_From data <> None) ->
      returns (Check (Whitelist IDs) h update)).
Proof.
  rewrite Check_Whitelist. repeat split.
  - intros data -> ->. reflexivity.
  - intros data ->. auto.
  - intros Hfrom. destruct (ExtractUpdate update) as [m|c|q|k|]; auto.
    specialize (Hfrom c eq_refl). destruct (CallbackQuery_From c); [auto | congruence].
Qed.

Lemma Whitelist_nil_From_witness :
  Check (Whitelist [1; 2; 3]) ∅ callback_without_From = Panic NilDereference
  /\ returns (Check (Whitelist [1; 2; 3]) ∅ (message_without_From "hi"))
  /\ returns (Check (Whitelist [1; 2; 3]) ∅
                (UpdateCallbackQuery (mkCallbackQuery "data" (Some (mkUser 2))))).
Proof.
  split; [|split].
  - apply (proj1 (Whitelist_nil_From [1; 2; 3] ∅ callback_without_From)
             (mkCallbackQuery "data" None)); reflexivity.
  - apply (proj1 (proj2 (Whitelist_nil_From [1; 2; 3] ∅ (message_without_From "hi")))
             (mkMessage "hi" "" None)); reflexivity.
  - apply (proj2 (proj2 (Whitelist_nil_From [1; 2; 3] ∅
             (UpdateCallbackQuery (mkCallbackQuery "data" (Some (mkUser 2))))))).
    intros data [= <-]; discriminate.
Defined.

Lemma negb_true_not (b : bool) (P : Prop) : (b = true <-> P) -> (negb b = true <-> ~ P).
Proof.
  destruct b; simpl; intros [H1 H2]; split.
  - discriminate.
  - intros HnP. destruct HnP. now apply H1.
  - intros _ HP. specialize (H2 HP). discriminate.
  - reflexivity.
Qed.

(** C3 (as the code has it): [Check] of [Blacklist(IDs...)] is the negation
    of [Check] of [Whitelist(IDs...)] on every update, and panics where that
    one panics.  On an update with a sender it returns true exactly when the
    sender is not among the IDs.  On an update with no resolvable sender it
    returns true unless the update is a Message (without [From]) and 0 is
    among the IDs. *)
Theorem Blacklist_negates_Whitelist (IDs : list Z) (h : Heap) (update : Update) :
  Check (Blacklist IDs) h update =
    (let! b := Check (Whitelist IDs) h update in Return (negb b))
  /\ (forall id, sender update = Some id ->
        exists b, Check (Blacklist IDs) h update = Return b /\ (b = true <-> id ∉ IDs))
  /\ (senderless update ->
        exists b, Check (Blacklist IDs) h update = Return b
                  /\ (b = true <-> ~ (is_Message update /\ 0 ∈ IDs))).
Proof.
  unfold Blacklist. rewrite Check_Not. split; [reflexivity|]. split.
  - intros id Hs. destruct (Whitelist_sender IDs h update id Hs) as (b & -> & Hb).
    exists (negb b). split; [reflexivity | now apply negb_true_not].
  - intros Hs. destruct (Whitelist_no_sender IDs h update Hs) as (b & -> & Hb).
    exists (negb b). split; [reflexivity | now apply negb_true_not].
Qed.

Lemma Blacklist_negates_Whitelist_witness :
  Check (Blacklist [1; 2; 3]) ∅ (message_from "hi" 2) = Return false
  /\ exists b, Check (Blacklist [1; 2; 3]) ∅ (message_without_From "hi") = Return b
               /\ (b = true <-> ~ (is_Message (message_without_From "hi") /\ 0 ∈ [1; 2; 3])).
Proof.
  split.
  - rewrite (proj1 (Blacklist_negates_Whitelist [1; 2; 3] ∅ (message_from "hi" 2))).
    reflexivity.
  - apply (proj2 (proj2 (Blacklist_negates_Whitelist [1; 2; 3] ∅
                           (message_without_From "hi")))).
    reflexivity.
Defined.

(** C3 fails as stated: the message has no resolvable sender, and the
    blacklist of the single id 0 rejects it. *)
Lemma Blacklist_zero_rejects_senderless :
  senderless (message_without_From "hi")
  /\ Check (Blacklist [0]) ∅ (message_without_From "hi") = Return false.
Proof. split; reflexivity. Qed.

(** ** Strings *)

Lemma HasPrefix_starts_with (s p : string) : HasPrefix s p = true <-> starts_with s p.
Proof.
  unfold HasPrefix, starts_with. revert s.
  induction p as [|a p IH]; intros s.
  - destruct s; simpl; split; eauto.
  - destruct s as [|b s]; simpl.
    + split; [discriminate | intros [rest [=]]].
    + destruct (ascii_dec a b) as [->|Hne].
      * rewrite IH. split; intros [rest Hr]; exists rest.
        -- subst s; reflexivity.
        -- now inversion Hr.
      * split; [discriminate | intros [rest Hr]; inversion Hr; congruence].
Qed.

(** ** Slices in the store *)

Lemma length_map_window (g : string -> string) (off len : nat) (a : list string) :
  (off + len <= length a)%nat -> length (map_window g off len a) = length a.
Proof.
  intros Hle. unfold map_window.
  rewrite !length_app, length_fmap, !length_take, !length_drop. lia.
Qed.

Lemma map_window_S (g : string -> string) (off k : nat) (a : list string) (c : string) :
  a !! (off + k)%nat = Some c ->
  <[(off + k)%nat := g c]> (map_window g off k a) = map_window g off (S k) a.
Proof.
  intros Hc. pose proof (lookup_lt_Some _ _ _ Hc) as Hlt.
  unfold map_window.
  rewrite (drop_S a c (off + k)) by exact Hc.
  rewrite (take_S_r (drop off a) k c) by (rewrite lookup_drop; exact Hc).
  rewrite fmap_app; simpl. rewrite <- app_assoc; simpl.
  rewrite insert_app_r_alt by (rewrite length_take; lia).
  rewrite insert_app_r_alt
    by (rewrite length_fmap, !length_take, length_drop; lia).
  replace (off + k - length (take off a) - length (g <$> take k (drop off a)))%nat
    with 0%nat by (rewrite length_fmap, !length_take, length_drop; lia).
  simpl. now replace (off + S k)%nat with (S (off + k)) by lia.
Qed.

Lemma map_window_0 (g : string -> string) (off : nat) (a : list string) :
  map_window g off 0 a = a.
Proof.
  unfold map_window. rewrite take_0, Nat.add_0_r; simpl. apply take_drop.
Qed.

Lemma lookup_map_window_in (g : string -> string) (off len : nat) (a : list string) (i : nat) :
  (off + len <= length a)%nat -> (i < len)%nat ->
  map_window g off len a !! (off + i)%nat = g <$> a !! (off + i)%nat.
Proof.
  intros Hle Hi. unfold map_window.
  rewrite lookup_app_r by (rewrite length_take; lia).
  rewrite length_take, Nat.min_l by lia.
  replace (off + i - off)%nat with i by lia.
  rewrite lookup_app_l by (rewrite length_fmap, length_take, length_drop; lia).
  rewrite list_lookup_fmap, lookup_take_lt, lookup_drop by lia. reflexivity.
Qed.

Lemma lookup_map_window_out (g : string -> string) (off len : nat) (a : list string) (j : nat) :
  (off + len <= length a)%nat -> (j < off \/ off + len <= j)%nat ->
  map_window g off len a !! j = a !! j.
Proof.
  intros Hle Hj. unfold map_window. destruct Hj as [Hj|Hj].
  - rewrite lookup_app_l by (rewrite length_take; lia).
    now apply lookup_take_lt.
  - rewrite lookup_app_r by (rewrite length_take; lia).
    rewrite lookup_app_r by (rewrite length_fmap, !length_take, length_drop; lia).
    rewrite length_fmap, !length_take, length_drop, lookup_drop.
    f_equal. lia.
Qed.

Lemma window_map_window (g : string -> string) (off len : nat) (a : list string) :
  (off + len <= length a)%nat ->
  take len (drop off (map_window g off len a)) = g <$> take len (drop off a).
Proof.
  intros Hle. unfold map_window.
  rewrite drop_app_length' by (rewrite length_take; lia).
  apply take_app_length'.
  rewrite length_fmap, length_take, length_drop. lia.
Qed.

(** ** Commands *)

Section commands_properties.

Variable ToLower : string -> string.

Lemma slice_get_insert (h : Heap) (cmds : Slice) (a : list string) (i : nat) :
  (i < slice_len cmds)%nat ->
  slice_get (<[slice_arr cmds := a]> h) cmds i = a !! (slice_off cmds + i)%nat.
Proof.
  intros Hi. unfold slice_get, backing.
  rewrite lookup_insert_eq. now rewrite decide_True.
Qed.

(** The store after the first [k] rounds of the loop of [Commands]. *)
Lemma normalize_steps (prefix : string) (cmds : Slice) (h : Heap) (a : list string) (k : nat) :
  h !! slice_arr cmds = Some a ->
  (slice_off cmds + slice_len cmds <= length a)%nat ->
  (k <= slice_len cmds)%nat ->
  foldl (normalize_step ToLower prefix cmds) h (seq 0 k)
  = <[slice_arr cmds := map_window (normalized ToLower prefix) (slice_off cmds) k a]> h.
Proof.
  intros Ha Hle. induction k as [|k IH]; intros Hk.
  - simpl. rewrite map_window_0. symmetry. now apply insert_id.
  - rewrite seq_S, foldl_app, IH by lia. simpl.
    destruct (lookup_lt_is_Some_2 a (slice_off cmds + k)) as [c Hc]; [lia|].
    unfold normalize_step. rewrite slice_get_insert by lia.
    rewrite lookup_map_window_out, Hc by lia.
    unfold slice_set. rewrite alter_insert_eq.
    f_equal. now apply (map_window_S (normalized ToLower prefix)).
Qed.

(** The store after the loop: the window of the slice is normalized in
    place. *)
Lemma normalize_allocated (prefix : string) (cmds : Slice) (h : Heap) (a : list string) :
  h !! slice_arr cmds = Some a ->
  (slice_off cmds + slice_len cmds <= length a)%nat ->
  normalize ToLower prefix cmds h
  = <[slice_arr cmds :=
        map_window (normalized ToLower prefix) (slice_off cmds) (slice_len cmds) a]> h.
Proof. intros Ha Hle. unfold normalize. now apply normalize_steps. Qed.

(** A slice of an array that is not in the store is empty, and the loop
    does nothing. *)
Lemma normalize_unallocated (prefix : string) (cmds : Slice) (h : Heap) :
  h !! slice_arr cmds = None -> slice_ok h cmds ->
  normalize ToLower prefix cmds h = h.
Proof.
  unfold slice_ok, backing, normalize. intros -> Hok; simpl in Hok.
  replace (slice_len cmds) with 0%nat by lia. reflexivity.
Qed.

Lemma backing_normalize (prefix : string) (cmds : Slice) (h : Heap) :
  slice_ok h cmds ->
  backing (normalize ToLower prefix cmds h) cmds
  = map_window (normalized ToLower prefix) (slice_off cmds) (slice_len cmds)
      (backing h cmds).
Proof.
  intros Hok. destruct (h !! slice_arr cmds) as [a|] eqn:Ha.
  - unfold slice_ok, backing in *. rewrite Ha in *; simpl in *.
    rewrite (normalize_allocated prefix cmds h a Ha Hok).
    now rewrite lookup_insert_eq.
  - rewrite normalize_unallocated by assumption.
    unfold slice_ok, backing in *. rewrite Ha in *; simpl in *.
    replace (slice_len cmds) with 0%nat by lia.
    replace (slice_off cmds) with 0%nat by lia. reflexivity.
Qed.

Lemma normalize_other (prefix : string) (cmds : Slice) (h : Heap) (l : loc) :
  slice_ok h cmds -> l <> slice_arr cmds ->
  normalize ToLower prefix cmds h !! l = h !! l.
Proof.
  intros Hok Hl. destruct (h !! slice_arr cmds) as [a|] eqn:Ha.
  - unfold slice_ok, backing in Hok. rewrite Ha in Hok; simpl in Hok.
    rewrite (normalize_allocated prefix cmds h a Ha Hok).
    now rewrite lookup_insert_ne.
  - now rewrite normalize_unallocated.
Qed.

Lemma normalize_dom (prefix : string) (cmds : Slice) (h : Heap) :
  slice_ok h cmds -> dom (normalize ToLower prefix cmds h) = dom h.
Proof.
  intros Hok. destruct (h !! slice_arr cmds) as [a|] eqn:Ha.
  - unfold slice_ok, backing in Hok. rewrite Ha in Hok; simpl in Hok.
    rewrite (normalize_allocated prefix cmds h a Ha Hok).
    apply dom_insert_lookup_L. now exists a.
  - now rewrite normalize_unallocated.
Qed.

Lemma slice_elems_normalize (prefix : string) (cmds : Slice) (h : Heap) :
  slice_ok h cmds ->
  slice_elems (normalize ToLower prefix cmds h) cmds
  = normalized ToLower prefix <$> slice_elems h cmds.
Proof.
  intros Hok. unfold slice_elems. rewrite backing_normalize by assumption.
  now apply window_map_window.
Qed.

Lemma cmd_matches_spec (text cmd botUsername : string) :
  cmd_matches text cmd botUsername = true <-> matches_command text cmd botUsername.
Proof.
  unfold cmd_matches, matches_command.
  rewrite !orb_true_iff, !String.eqb_eq, !HasPrefix_starts_with. tauto.
Qed.

Lemma cmd_loop_spec (cmds : list string) (text botUsername : string) :
  cmd_loop cmds text botUsername = true
  <-> exists cmd, cmd ∈ cmds /\ matches_command text cmd botUsername.
Proof.
  induction cmds as [|cmd rest IH]; simpl.
  - split; [discriminate | intros (c & Hc & _); inversion Hc].
  - destruct (cmd_matches text cmd botUsername) eqn:Hm.
    + apply cmd_matches_spec in Hm. split; [|reflexivity].
      intros _. exists cmd. split; [left | exact Hm].
    + rewrite IH. split.
      * intros (c & Hc & Hmc). exists c. split; [now right | exact Hmc].
      * intros (c & Hc & Hmc). apply elem_of_cons in Hc as [->|Hc].
        -- apply cmd_matches_spec in Hmc. congruence.
        -- eauto.
Qed.

(** The bot user name that the filter compares: with a leading "@". *)
Lemma at_username_spec (botUsername : string) :
  (starts_with botUsername "@" -> at_username botUsername = botUsername)
  /\ (~ starts_with botUsername "@" -> at_username botUsername = "@" +:+ botUsername).
Proof.
  unfold at_username. rewrite <- HasPrefix_starts_with.
  destruct (HasPrefix botUsername "@"); simpl; split; congruence.
Qed.

Lemma at_username_with_at (botUsername : string) :
  at_username botUsername = with_at botUsername.
Proof.
  unfold at_username, HasPrefix. destruct botUsername as [|a s]; [reflexivity|].
  simpl. destruct (ascii_dec "@" a) as [<-|Hne].
  - destruct s; reflexivity.
  - destruct a as [[] [] [] [] [] [] [] []]; try reflexivity. now destruct Hne.
Qed.

(** What the closure of [Commands] computes in a store [h]. *)
Lemma Commands_check_spec (botUsername : string) (cmds : Slice) (h : Heap) (update : Update) :
  exists b, Commands_check botUsername cmds h update = Return b
    /\ (b = true <->
          exists m, ExtractUpdate update = PMessage m
            /\ exists cmd, cmd ∈ slice_elems h cmds
                 /\ matches_command (command_text m) cmd botUsername).
Proof.
  unfold Commands_check.
  destruct (ExtractUpdate update) as [m|c|q|k|];
    try (exists false; split; [reflexivity|];
         split; [discriminate | intros (m' & [=] & _)]).
  fold (command_text m).
  exists (cmd_loop (slice_elems h cmds) (command_text m) botUsername). split.
  - destruct (cmd_loop _ _ _); reflexivity.
  - rewrite cmd_loop_spec. split.
    + intros Hc. exists m. split; [reflexivity | exact Hc].
    + intros (m' & [= <-] & Hc). exact Hc.
Qed.

(** A check reads nothing of the store but the elements of the slice. *)
Lemma Commands_check_elems (botUsername : string) (s1 s2 : Slice) (h1 h2 : Heap)
    (update : Update) :
  slice_elems h1 s1 = slice_elems h2 s2 ->
  Commands_check botUsername s1 h1 update = Commands_check botUsername s2 h2 update.
Proof. unfold Commands_check. now intros ->. Qed.

Lemma variadic_slice (args : list string) (h : Heap) :
  slice_ok (variadic args h).1 (variadic args h).2
  /\ slice_elems (variadic args h).1 (variadic args h).2 = args
  /\ forall l, l ∈ dom h -> (variadic args h).1 !! l = h !! l.
Proof.
  unfold variadic, slice_ok, slice_elems, backing; simpl.
  rewrite lookup_insert_eq; simpl. split; [lia|]. split.
  - now apply take_ge.
  - intros l Hl. apply lookup_insert_ne. intros <-.
    now apply (is_fresh (dom h)).
Qed.

(** C4: [Commands(prefix, botUsername, cmds...)] rewrites the caller's
    slice in place.  After the call every entry [cmds[i]] is the lower-casing
    of [prefix] followed by the entry it replaces; every other array of the
    store, the elements of the backing array outside the slice, the length
    of the array and the set of allocated arrays are as before. *)
Theorem Commands_normalizes_in_place (prefix botUsername : string) (cmds : Slice) (h : Heap) :
  slice_ok h cmds ->
  slice_elems (Commands ToLower prefix botUsername cmds h).1 cmds
    = (fun command => ToLower (prefix +:+ command)) <$> slice_elems h cmds
  /\ (forall i command, slice_get h cmds i = Some command ->
        slice_get (Commands ToLower prefix botUsername cmds h).1 cmds i
        = Some (ToLower (prefix +:+ command)))
  /\ (forall l, l <> slice_arr cmds ->
        (Commands ToLower prefix botUsername cmds h).1 !! l = h !! l)
  /\ (forall j, (j < slice_off cmds \/ slice_off cmds + slice_len cmds <= j)%nat ->
        backing (Commands ToLower prefix botUsername cmds h).1 cmds !! j
        = backing h cmds !! j)
  /\ length (backing (Commands ToLower prefix botUsername cmds h).1 cmds)
     = length (backing h cmds)
  /\ dom (Commands ToLower prefix botUsername cmds h).1 = dom h.
Proof.
  intros Hok. unfold Commands; simpl. repeat split.
  - now apply slice_elems_normalize.
  - intros i command. unfold slice_get.
    rewrite backing_normalize by assumption.
    destruct (decide (i < slice_len cmds)%nat) as [Hi|]; [|discriminate].
    intros Hc. rewrite lookup_map_window_in, Hc by (assumption || exact Hok).
    reflexivity.
  - intros l Hl. now apply normalize_other.
  - intros j Hj. rewrite backing_normalize by assumption.
    now apply lookup_map_window_out.
  - rewrite backing_normalize by assumption. now apply length_map_window.
  - now apply normalize_dom.
Qed.

(** C2: the filter built by [Commands], checked in the store the call
    left, returns; it returns true exactly when the update is a Message
    whose text (its caption when the text is empty) equals a normalized
    command, or that command followed by the bot user name (with its
    leading "@"), or starts with the command and a space, or with the
    command, the bot user name and a space.  On any update that is not a
    Message it returns false. *)
Theorem Commands_matches (prefix botUsername : string) (cmds : Slice) (h : Heap)
    (update : Update) :
  slice_ok h cmds ->
  exists b,
    Check (Commands ToLower prefix botUsername cmds h).2
          (Commands ToLower prefix botUsername cmds h).1 update = Return b
    /\ (b = true <->
          exists m, ExtractUpdate update = PMessage m
            /\ exists command, command ∈ slice_elems h cmds
                 /\ matches_command (command_text m)
                      (ToLower (prefix +:+ command)) (with_at botUsername))
    /\ (~ is_Message update -> b = false).
Proof.
  intros Hok. unfold Commands, Check; simpl.
  rewrite <- at_username_with_at.
  destruct (Commands_check_spec (at_username botUsername) cmds
              (normalize ToLower prefix cmds h) update) as (b & Hb & Hiff).
  exists b. split; [exact Hb|]. split.
  - rewrite Hiff, slice_elems_normalize by assumption.
    split; intros (m & Hm & Hc); exists m; (split; [exact Hm|]).
    + destruct Hc as (cmd & Hin & Hmatch).
      apply list_elem_of_fmap in Hin as (command & -> & Hin). eauto.
    + destruct Hc as (command & Hin & Hmatch).
      exists (normalized ToLower prefix command). split; [|exact Hmatch].
      apply list_elem_of_fmap. eauto.
  - intros Hnot. destruct b; [|reflexivity].
    destruct (proj1 Hiff eq_refl) as (m & Hm & _).
    destruct Hnot. now exists m.
Qed.

(** C8: [Command(name, botUsername)] is the call
    [Commands("/", botUsername, name)], made on a fresh one-element slice;
    the filter it builds gives, on every update, the outcome of the filter
    that [Commands("/", botUsername, cmds...)] builds from any slice
    holding just [name] (each checked in the store its construction
    left), and the call leaves the arrays of the caller as they were. *)
Theorem Command_is_Commands (name botUsername : string) (h : Heap) (update : Update) :
  Command ToLower name botUsername h
    = Commands ToLower "/" botUsername (variadic [name] h).2 (variadic [name] h).1
  /\ (forall h' cmds, slice_ok h' cmds -> slice_elems h' cmds = [name] ->
        Check (Command ToLower name botUsername h).2
              (Command ToLower name botUsername h).1 update
        = Check (Commands ToLower "/" botUsername cmds h').2
                (Commands ToLower "/" botUsername cmds h').1 update)
  /\ (forall l, l ∈ dom h -> (Command ToLower name botUsername h).1 !! l = h !! l).
Proof.
  destruct (variadic_slice [name] h) as (Hok & Helems & Hframe).
  split; [reflexivity|]. split.
  - intros h' cmds Hok' Helems'. unfold Command.
    destruct (variadic [name] h) as [h1 cmds1]; simpl in *.
    unfold Check; simpl. apply Commands_check_elems.
    rewrite !slice_elems_normalize by assumption. congruence.
  - intros l Hl. unfold Command.
    destruct (variadic [name] h) as [h1 cmds1] eqn:Hv; simpl in *.
    rewrite normalize_other; [now apply Hframe | assumption |].
    intros ->. injection Hv as <- <-; simpl in *.
    now apply (is_fresh (dom h)).
Qed.

End commands_properties.

(** ** The commands at work, on ASCII text *)

Lemma Commands_normalizes_in_place_witness :
  slice_ok sample_store sample_cmds
  /\ slice_elems (Commands ascii_ToLower "/" "mybot" sample_cmds sample_store).1 sample_cmds
     = ["/start"; "/help"].
Proof.
  assert (Hok : slice_ok sample_store sample_cmds) by (vm_compute; lia).
  split; [exact Hok|].
  rewrite (proj1 (Commands_normalizes_in_place ascii_ToLower "/" "mybot"
                    sample_cmds sample_store Hok)).
  reflexivity.
Defined.

(** The whole array after the call: only the two entries of the slice have
    changed. *)
Example Commands_sample_store :
  (Commands ascii_ToLower "/" "mybot" sample_cmds sample_store).1
  = {[ 1%positive := ["Pre"; "/start"; "/help"; "Post"] ]}.
Proof. vm_compute. reflexivity. Qed.

(** A slice of the single command "Start" becomes "/start". *)
Example Commands_Start :
  (Commands ascii_ToLower "/" "mybot" (mkSlice 1%positive 0 1)
     {[ 1%positive := ["Start"] ]}).1
  = {[ 1%positive := ["/start"] ]}.
Proof. vm_compute. reflexivity. Qed.

Lemma Commands_matches_witness :
  slice_ok sample_store sample_cmds
  /\ exists b,
      Check (Commands ascii_ToLower "/" "mybot" sample_cmds sample_store).2
            (Commands ascii_ToLower "/" "mybot" sample_cmds sample_store).1
            (message_from "/start 42" 2) = Return b
      /\ (b = true <->
            exists m, ExtractUpdate (message_from "/start 42" 2) = PMessage m
              /\ exists command, command ∈ slice_elems sample_store sample_cmds
                   /\ matches_command (command_text m)
                        (ascii_ToLower ("/" +:+ command)) (with_at "mybot"))
      /\ (~ is_Message (message_from "/start 42" 2) -> b = false).
Proof.
  assert (Hok : slice_ok sample_store sample_cmds) by (vm_compute; lia).
  split; [exact Hok|].
  exact (Commands_matches ascii_ToLower "/" "mybot" sample_cmds sample_store
           (message_from "/start 42" 2) Hok).
Defined.

Lemma Command_is_Commands_witness :
  Check (Command ascii_ToLower "start" "mybot" sample_store).2
        (Command ascii_ToLower "start" "mybot" sample_store).1
        (message_from "/start@mybot 42" 2)
  = Check (Commands ascii_ToLower "/" "mybot" start_cmds start_store).2
          (Commands ascii_ToLower "/" "mybot" start_cmds start_store).1
          (message_from "/start@mybot 42" 2).
Proof.
  apply (proj1 (proj2 (Command_is_Commands ascii_ToLower "start" "mybot" sample_store
                         (message_from "/start@mybot 42" 2)))).
  - vm_compute; lia.
  - reflexivity.
Defined.

(** [Command("start", "mybot")] on the texts of the spec. *)
Example Command_start_texts :
  let '(h, flt) := Command ascii_ToLower "start" "mybot" ∅ in
  (fun text => Check flt h (message_from text 2))
    <$> ["/start"; "/start@mybot"; "/start 42"; "/start@mybot 42"; "/started"; "start"]
  = [Return true; Return true; Return true; Return true; Return false; Return false].
Proof. vm_compute. reflexivity. Qed.

(** The incoming text is compared as it is: only the commands are
    lower-cased. *)
Example Command_start_upper_case :
  let '(h, flt) := Command ascii_ToLower "start" "mybot" ∅ in
  Check flt h (message_from "/Start" 2) = Return false.
Proof. vm_compute. reflexivity. Qed.

(** The filter keeps the caller's slice: when the caller overwrites an
    entry after the construction, the filter follows. *)
Example Commands_aliases_cmds :
  let '(h, flt) := Commands ascii_ToLower "/" "mybot" sample_cmds sample_store in
  Check flt h (message_from "/stop" 2) = Return false
  /\ Check flt (slice_set h sample_cmds 0 "/stop") (message_from "/stop" 2) = Return true
  /\ Check flt (slice_set h sample_cmds 0 "/stop") (message_from "/start" 2) = Return false.
Proof. vm_compute. repeat split. Qed.

(** The spec's samples for the ID filters. *)
Example Whitelist_samples :
  Check (Whitelist [1; 2; 3]) ∅ (message_from "hi" 2) = Return true
  /\ Check (Whitelist [1; 2; 3]) ∅ (message_without_From "hi") = Return false
  /\ Check (Whitelist [1; 2; 3]) ∅ (inline_query "2") = Return false
  /\ Check (Blacklist [1; 2; 3]) ∅ (message_from "hi" 2) = Return false
  /\ Check (Blacklist [1; 2; 3]) ∅ (message_without_From "hi") = Return true
  /\ Check (Whitelist []) ∅ (message_without_From "hi") = Return false.
Proof. repeat split. Qed.

(** * Further properties *)

(** ** The loops of [Or] and [And] *)

Lemma Check_Or_nil (h : Heap) (update : Update) : Check (Or []) h update = Return false.
Proof. reflexivity. Qed.

Lemma Check_And_nil (h : Heap) (update : Update) : Check (And []) h update = Return true.
Proof. reflexivity. Qed.

(** The two shapes of [a :: rest = pre ++ flt :: post]. *)
Ltac front_cases pre Heq Hpre :=
  let g := fresh "g" in
  let Hg := fresh "Hg" in
  destruct pre as [|g pre]; injection Heq as -> ->;
  [ | apply Forall_cons in Hpre as [Hg Hpre] ].

(** [Or] gives the outcome [r] of the first filter that does not return
    false, when [r] is not "false" itself. *)
Lemma Or_first (filters : list Filter) (h : Heap) (update : Update) (r : outcome bool) :
  r <> Return false ->
  Check (Or filters) h update = r
  <-> exists pre flt post,
        filters = pre ++ flt :: post
        /\ Forall (fun g => Check g h update = Return false) pre
        /\ Check flt h update = r.
Proof.
  intros Hr. induction filters as [|a rest IH].
  - rewrite Check_Or_nil. split; [congruence|].
    intros (pre & flt & post & Heq & _). destruct pre; discriminate.
  - rewrite Check_Or_cons. destruct (Check a h update) as [[|]|e] eqn:Ha; simpl.
    + split.
      * intros <-. exists [], a, rest. auto.
      * intros (pre & flt & post & Heq & Hpre & Hflt).
        front_cases pre Heq Hpre; congruence.
    + rewrite IH. split.
      * intros (pre & flt & post & -> & Hpre & Hflt).
        exists (a :: pre), flt, post. auto.
      * intros (pre & flt & post & Heq & Hpre & Hflt).
        front_cases pre Heq Hpre; [congruence | exists pre, flt, post; auto].
    + split.
      * intros <-. exists [], a, rest. auto.
      * intros (pre & flt & post & Heq & Hpre & Hflt).
        front_cases pre Heq Hpre; congruence.
Qed.

Lemma Or_all_false (filters : list Filter) (h : Heap) (update : Update) :
  Check (Or filters) h update = Return false
  <-> Forall (fun g => Check g h update = Return false) filters.
Proof.
  induction filters as [|a rest IH].
  - rewrite Check_Or_nil. split; auto.
  - rewrite Check_Or_cons, Forall_cons.
    destruct (Check a h update) as [[|]|e]; simpl.
    + split; [discriminate | intros [[=] _]].
    + rewrite IH. tauto.
    + split; [discriminate | intros [[=] _]].
Qed.

(** [And] gives the outcome [r] of the first filter that does not return
    true, when [r] is not "true" itself. *)
Lemma And_first (filters : list Filter) (h : Heap) (update : Update) (r : outcome bool) :
  r <> Return true ->
  Check (And filters) h update = r
  <-> exists pre flt post,
        filters = pre ++ flt :: post
        /\ Forall (fun g => Check g h update = Return true) pre
        /\ Check flt h update = r.
Proof.
  intros Hr. induction filters as [|a rest IH].
  - rewrite Check_And_nil. split; [congruence|].
    intros (pre & flt & post & Heq & _). destruct pre; discriminate.
  - rewrite Check_And_cons. destruct (Check a h update) as [[|]|e] eqn:Ha; simpl.
    + rewrite IH. split.
      * intros (pre & flt & post & -> & Hpre & Hflt).
        exists (a :: pre), flt, post. auto.
      * intros (pre & flt & post & Heq & Hpre & Hflt).
        front_cases pre Heq Hpre; [congruence | exists pre, flt, post; auto].
    + split.
      * intros <-. exists [], a, rest. auto.
      * intros (pre & flt & post & Heq & Hpre & Hflt).
        front_cases pre Heq Hpre; congruence.
    + split.
      * intros <-. exists [], a, rest. auto.
      * intros (pre & flt & post & Heq & Hpre & Hflt).
        front_cases pre Heq Hpre; congruence.
Qed.

Lemma And_all_true (filters : list Filter) (h : Heap) (update : Update) :
  Check (And filters) h update = Return true
  <-> Forall (fun g => Check g h update = Return true) filters.
Proof.
  induction filters as [|a rest IH].
  - rewrite Check_And_nil. split; auto.
  - rewrite Check_And_cons, Forall_cons.
    destruct (Check a h update) as [[|]|e]; simpl.
    + rewrite IH. tauto.
    + split; [discriminate | intros [[=] _]].
    + split; [discriminate | intros [[=] _]].
Qed.

(** X1: [Or] runs its filters from the left and stops at the first that
    does not return false.  It returns true exactly when some filter returns
    true and all filters before it returned false; it returns false exactly
    when every filter returns false; it panics exactly when some filter
    panics and all filters before it returned false.  The filters after the
    deciding one are not run: what they would do does not matter. *)
Theorem Or_first_decides (filters : list Filter) (h : Heap) (update : Update) :
  (Check (Or filters) h update = Return true
   <-> exists pre flt post,
         filters = pre ++ flt :: post
         /\ Forall (fun g => Check g h update = Return false) pre
         /\ Check flt h update = Return true)
  /\ (Check (Or filters) h update = Return false
      <-> Forall (fun g => Check g h update = Return false) filters)
  /\ (forall e, Check (Or filters) h update = Panic e
      <-> exists pre flt post,
            filters = pre ++ flt :: post
            /\ Forall (fun g => Check g h update = Return false) pre
            /\ Check flt h update = Panic e).
Proof.
  split; [apply Or_first; discriminate|].
  split; [apply Or_all_false|].
  intros e. apply Or_first. discriminate.
Qed.

(** X2: [And] runs its filters from the left and stops at the first that
    does not return true.  It returns false exactly when some filter returns
    false and all filters before it returned true; it returns true exactly
    when every filter returns true; it panics exactly when some filter
    panics and all filters before it returned true. *)
Theorem And_first_decides (filters : list Filter) (h : Heap) (update : Update) :
  (Check (And filters) h update = Return false
   <-> exists pre flt post,
         filters = pre ++ flt :: post
         /\ Forall (fun g => Check g h update = Return true) pre
         /\ Check flt h update = Return false)
  /\ (Check (And filters) h update = Return true
      <-> Forall (fun g => Check g h update = Return true) filters)
  /\ (forall e, Check (And filters) h update = Panic e
      <-> exists pre flt post,
            filters = pre ++ flt :: post
            /\ Forall (fun g => Check g h update = Return true) pre
            /\ Check flt h update = Panic e).
Proof.
  split; [apply And_first; discriminate|].
  split; [apply And_all_true|].
  intros e. apply And_first. discriminate.
Qed.

(** X3: [Or] of any number of filters is [Not] of the [And] of their
    negations, outcome for outcome. *)
Theorem Or_De_Morgan_list (filters : list Filter) (h : Heap) (update : Update) :
  Check (Or filters) h update = Check (Not (And (Not <$> filters))) h update.
Proof.
  induction filters as [|flt rest IH]; [reflexivity|].
  rewrite fmap_cons, Check_Not, Check_Or_cons, Check_And_cons, Check_Not.
  rewrite IH, Check_Not.
  destruct (Check flt h update) as [[|]|e]; reflexivity.
Qed.

Lemma Check_And_app (fs gs : list Filter) (h : Heap) (update : Update) :
  Check (And (fs ++ gs)) h update =
  (let! b := Check (And fs) h update in
   if negb b then Return false else Check (And gs) h update).
Proof.
  induction fs as [|a fs IH]; [reflexivity|].
  rewrite <- app_comm_cons, !Check_And_cons, IH.
  destruct (Check a h update) as [[|]|e]; reflexivity.
Qed.

Lemma Check_Or_app (fs gs : list Filter) (h : Heap) (update : Update) :
  Check (Or (fs ++ gs)) h update =
  (let! b := Check (Or fs) h update in
   if b then Return true else Check (Or gs) h update).
Proof.
  induction fs as [|a fs IH]; [reflexivity|].
  rewrite <- app_comm_cons, !Check_Or_cons, IH.
  destruct (Check a h update) as [[|]|e]; reflexivity.
Qed.

(** X5: a nested [And] may be flattened into the [And] around it, and a
    nested [Or] into the [Or] around it, wherever it stands in the list: the
    outcome is the same on every update. *)
Theorem And_Or_flatten (pre fs post : list Filter) (h : Heap) (update : Update) :
  Check (And (pre ++ And fs :: post)) h update = Check (And (pre ++ fs ++ post)) h update
  /\ Check (Or (pre ++ Or fs :: post)) h update = Check (Or (pre ++ fs ++ post)) h update.
Proof.
  split.
  - rewrite !Check_And_app, Check_And_cons. reflexivity.
  - rewrite !Check_Or_app, Check_Or_cons. reflexivity.
Qed.

(** When every filter returns, [And] returns, and returns true exactly when
    all of them do. *)
Lemma And_returns (filters : list Filter) (h : Heap) (update : Update) :
  Forall (fun g => returns (Check g h update)) filters ->
  exists b, Check (And filters) h update = Return b
            /\ (b = true <-> Forall (fun g => Check g h update = Return true) filters).
Proof.
  intros Hret. destruct (Check (And filters) h update) as [[|]|e] eqn:Hc.
  - exists true. split; [reflexivity|]. split; [|reflexivity].
    intros _. now apply And_all_true.
  - exists false. split; [reflexivity|]. split; [discriminate|].
    intros Hall. apply And_all_true in Hall. congruence.
  - apply And_first in Hc as (pre & flt & post & -> & _ & Hflt); [|discriminate].
    apply Forall_app in Hret as [_ Hret]. apply Forall_cons in Hret as [[b Hb] _].
    congruence.
Qed.

Lemma Or_returns (filters : list Filter) (h : Heap) (update : Update) :
  Forall (fun g => returns (Check g h update)) filters ->
  exists b, Check (Or filters) h update = Return b
            /\ (b = false <-> Forall (fun g => Check g h update = Return false) filters).
Proof.
  intros Hret. destruct (Check (Or filters) h update) as [[|]|e] eqn:Hc.
  - exists true. split; [reflexivity|]. split; [discriminate|].
    intros Hall. apply Or_all_false in Hall. congruence.
  - exists false. split; [reflexivity|]. split; [|reflexivity].
    intros _. now apply Or_all_false.
  - apply Or_first in Hc as (pre & flt & post & -> & _ & Hflt); [|discriminate].
    apply Forall_app in Hret as [_ Hret]. apply Forall_cons in Hret as [[b Hb] _].
    congruence.
Qed.

(** X6: [True()] may be dropped from the list of an [And], and [False()]
    from the list of an [Or], wherever it stands.  A [False()] in an [And],
    or a [True()] in an [Or], settles the outcome when the filters before it
    return: the filters after it are not run. *)
Theorem Always_in_And_Or (pre post : list Filter) (h : Heap) (update : Update) :
  Check (And (pre ++ Always.True :: post)) h update = Check (And (pre ++ post)) h update
  /\ Check (Or (pre ++ Always.False :: post)) h update = Check (Or (pre ++ post)) h update
  /\ (Forall (fun g => returns (Check g h update)) pre ->
      Check (And (pre ++ Always.False :: post)) h update = Return false
      /\ Check (Or (pre ++ Always.True :: post)) h update = Return true).
Proof.
  split; [|split].
  - rewrite !Check_And_app, Check_And_cons. reflexivity.
  - rewrite !Check_Or_app, Check_Or_cons. reflexivity.
  - intros Hret. split.
    + destruct (And_returns pre h update Hret) as (b & Hb & _).
      rewrite Check_And_app, Hb, Check_And_cons. destruct b; reflexivity.
    + destruct (Or_returns pre h update Hret) as (b & Hb & _).
      rewrite Check_Or_app, Hb, Check_Or_cons. destruct b; reflexivity.
Qed.

(** X7: when every filter returns on the update (none panics), the order of
    the filters does not matter to [And] nor to [Or]. *)
Theorem And_Or_permutation (fs gs : list Filter) (h : Heap) (update : Update) :
  Forall (fun g => returns (Check g h update)) fs ->
  fs ≡ₚ gs ->
  Check (And fs) h update = Check (And gs) h update
  /\ Check (Or fs) h update = Check (Or gs) h update.
Proof.
  intros Hfs Hperm.
  assert (Hgs : Forall (fun g => returns (Check g h update)) gs)
    by now rewrite <- Hperm.
  split.
  - destruct (And_returns fs h update Hfs) as (b1 & -> & H1).
    destruct (And_returns gs h update Hgs) as (b2 & -> & H2).
    rewrite Hperm in H1. f_equal.
    destruct b1, b2; try reflexivity; [symmetry|]; tauto.
  - destruct (Or_returns fs h update Hfs) as (b1 & -> & H1).
    destruct (Or_returns gs h update Hgs) as (b2 & -> & H2).
    rewrite Hperm in H1. f_equal.
    destruct b1, b2; try reflexivity; [|symmetry]; tauto.
Qed.

Lemma And_Or_permutation_witness :
  Check (And [Whitelist [1; 2]; Text "hi"]) ∅ (message_from "hi" 2)
  = Check (And [Text "hi"; Whitelist [1; 2]]) ∅ (message_from "hi" 2)
  /\ Check (Or [Whitelist [1; 2]; Text "hi"]) ∅ (message_from "hi" 2)
     = Check (Or [Text "hi"; Whitelist [1; 2]]) ∅ (message_from "hi" 2).
Proof.
  apply (And_Or_permutation [Whitelist [1; 2]; Text "hi"] [Text "hi"; Whitelist [1; 2]]
           ∅ (message_from "hi" 2)).
  - repeat constructor; eexists; reflexivity.
  - apply Permutation_swap.
Defined.

(** Without that condition the order matters: the first list stops at
    [False()], the second runs the whitelist first, which panics. *)
Example And_order_matters :
  Check (And [Always.False; Whitelist [1]]) ∅ callback_without_From = Return false
  /\ Check (And [Whitelist [1]; Always.False]) ∅ callback_without_From
     = Panic NilDereference.
Proof. split; reflexivity. Qed.

(** ** The text filters *)

Lemma length_append (a b : string) :
  String.length (a +:+ b) = (String.length a + String.length b)%nat.
Proof. induction a as [|c a IH]; simpl; [reflexivity | now f_equal]. Qed.

Lemma append_empty_r (s : string) : s +:+ "" = s.
Proof.
  induction s as [|c s IH]; [reflexivity|].
  change (String c (s +:+ "") = String c s). now f_equal.
Qed.

Lemma substring_whole (s : string) : substring 0 (String.length s) s = s.
Proof. induction s as [|c s IH]; simpl; [reflexivity | now f_equal]. Qed.

Lemma substring_append_r (front suffix : string) :
  substring (String.length front) (String.length suffix) (front +:+ suffix) = suffix.
Proof. induction front as [|c front IH]; simpl; [apply substring_whole | exact IH]. Qed.

Lemma substring_split (n : nat) (s : string) :
  (n <= String.length s)%nat ->
  s = substring 0 n s +:+ substring n (String.length s - n) s.
Proof.
  revert s. induction n as [|n IH]; intros s Hn.
  - rewrite Nat.sub_0_r, substring_whole. destruct s; reflexivity.
  - destruct s as [|c s]; simpl in *; [lia|].
    change (String c s
            = String c (substring 0 n s +:+ substring n (String.length s - n) s)).
    f_equal. apply IH. lia.
Qed.

Lemma HasSuffix_ends_with (s suffix : string) :
  HasSuffix s suffix = true <-> ends_with s suffix.
Proof.
  unfold HasSuffix, ends_with.
  rewrite andb_true_iff, Nat.leb_le, String.eqb_eq. split.
  - intros [Hle Hsub].
    exists (substring 0 (String.length s - String.length suffix) s).
    pose proof (substring_split (String.length s - String.length suffix) s) as Hsplit.
    replace (String.length s - (String.length s - String.length suffix))%nat
      with (String.length suffix) in Hsplit by lia.
    rewrite Hsub in Hsplit. apply Hsplit. lia.
  - intros [front ->]. rewrite length_append. split; [lia|].
    replace (String.length front + String.length suffix - String.length suffix)%nat
      with (String.length front) by lia.
    apply substring_append_r.
Qed.

Lemma text_loop_true (texts : list string) (raw : string) :
  text_loop texts raw = true <-> raw ∈ texts.
Proof.
  induction texts as [|text rest IH]; simpl.
  - split; [discriminate | intros H; inversion H].
  - rewrite elem_of_cons. destruct (String.eqb_spec raw text) as [->|Hne].
    + split; auto.
    + rewrite IH. split; [auto | intros [->|H]; [contradiction | exact H]].
Qed.

Lemma Check_Text_true (t : string) (h : Heap) (update : Update) :
  Check (Text t) h update = Return true <-> ExtractUpdateText update = t.
Proof.
  rewrite <- String.eqb_eq. unfold Check, Text; simpl.
  split; [now intros [= ->] | now intros ->].
Qed.

Lemma Check_Texts_true (texts : list string) (h : Heap) (update : Update) :
  Check (Texts texts) h update = Return true <-> ExtractUpdateText update ∈ texts.
Proof.
  rewrite <- text_loop_true. unfold Check, Texts; simpl.
  split; [now intros [= ->] | now intros ->].
Qed.

Lemma Check_WithPrefix_true (p : string) (h : Heap) (update : Update) :
  Check (WithPrefix p) h update = Return true
  <-> starts_with (ExtractUpdateText update) p.
Proof.
  rewrite <- HasPrefix_starts_with. unfold Check, WithPrefix; simpl.
  split; [now intros [= ->] | now intros ->].
Qed.

Lemma Check_WithSuffix_true (p : string) (h : Heap) (update : Update) :
  Check (WithSuffix p) h update = Return true
  <-> ends_with (ExtractUpdateText update) p.
Proof.
  rewrite <- HasSuffix_ends_with. unfold Check, WithSuffix; simpl.
  split; [now intros [= ->] | now intros ->].
Qed.

(** X8: [Texts(t1, ..., tn)] has the outcome of [Or(Text(t1), ...,
    Text(tn))] on every update; it returns true exactly when the text of the
    update is one of the texts, so [Texts()] of no text matches nothing. *)
Theorem Texts_is_Or_of_Text (texts : list string) (h : Heap) (update : Update) :
  Check (Texts texts) h update = Check (Or (Text <$> texts)) h update
  /\ (Check (Texts texts) h update = Return true <-> ExtractUpdateText update ∈ texts)
  /\ Check (Texts []) h update = Return false.
Proof.
  split; [|split].
  - induction texts as [|text rest IH]; [reflexivity|].
    rewrite fmap_cons, Check_Or_cons, <- IH.
    unfold Check, Texts, Text; simpl.
    destruct (ExtractUpdateText update =? text)%string; reflexivity.
  - apply Check_Texts_true.
  - reflexivity.
Qed.

(** X9: [WithPrefix(p)] returns true exactly when the text of the update
    is [p] followed by some string, [WithSuffix(s)] exactly when it is some
    string followed by [s]; so the empty prefix and the empty suffix match
    every update, those without any text included. *)
Theorem WithPrefix_WithSuffix_spec (p : string) (h : Heap) (update : Update) :
  (Check (WithPrefix p) h update = Return true
   <-> starts_with (ExtractUpdateText update) p)
  /\ (Check (WithSuffix p) h update = Return true
      <-> ends_with (ExtractUpdateText update) p)
  /\ Check (WithPrefix "") h update = Return true
  /\ Check (WithSuffix "") h update = Return true.
Proof.
  split; [apply Check_WithPrefix_true|]. split; [apply Check_WithSuffix_true|]. split.
  - apply Check_WithPrefix_true. now exists (ExtractUpdateText update).
  - apply Check_WithSuffix_true. exists (ExtractUpdateText update).
    now rewrite append_empty_r.
Qed.

(** X10: an update that [Text(t)] matches is matched by [WithPrefix(t)],
    by [WithSuffix(t)] and by every [Texts] that lists [t]. *)
Theorem Text_implies (t : string) (texts : list string) (h : Heap) (update : Update) :
  Check (Text t) h update = Return true ->
  Check (WithPrefix t) h update = Return true
  /\ Check (WithSuffix t) h update = Return true
  /\ (t ∈ texts -> Check (Texts texts) h update = Return true).
Proof.
  rewrite Check_Text_true. intros Heq. split; [|split].
  - apply Check_WithPrefix_true. exists "". now rewrite Heq, append_empty_r.
  - apply Check_WithSuffix_true. exists "". now rewrite Heq.
  - intros Hin. apply Check_Texts_true. now rewrite Heq.
Qed.

Lemma Text_implies_witness :
  Check (WithPrefix "/start") ∅ (message_from "/start" 2) = Return true
  /\ Check (WithSuffix "/start") ∅ (message_from "/start" 2) = Return true
  /\ ("/start" ∈ ["/help"; "/start"] ->
      Check (Texts ["/help"; "/start"]) ∅ (message_from "/start" 2) = Return true).
Proof.
  apply (Text_implies "/start" ["/help"; "/start"] ∅ (message_from "/start" 2)).
  reflexivity.
Defined.

(** The prefixes of the spec: "/start" and "/start 123" begin with
    "/start", "start" and "/star" do not. *)
Example WithPrefix_start :
  (fun text => Check (WithPrefix "/start") ∅ (message_from text 2))
    <$> ["/start"; "/start 123"; "start"; "/star"]
  = [Return true; Return true; Return false; Return false].
Proof. reflexivity. Qed.

Example WithSuffix_samples :
  (fun text => Check (WithSuffix "ing") ∅ (message_from text 2))
    <$> ["ing"; "testing"; "in"; "ings"; ""]
  = [Return true; Return true; Return false; Return false; Return false].
Proof. reflexivity. Qed.

(** ** The ID filters *)

Lemma id_loop_app (a b : list Z) (senderID : Z) :
  id_loop (a ++ b) senderID = id_loop a senderID || id_loop b senderID.
Proof.
  induction a as [|id a IH]; simpl; [reflexivity|].
  destruct (id =? senderID); [reflexivity | exact IH].
Qed.

Lemma id_loop_same (a b : list Z) (senderID : Z) :
  (forall id, id ∈ a <-> id ∈ b) -> id_loop a senderID = id_loop b senderID.
Proof.
  intros Hab. specialize (Hab senderID). rewrite <- !id_loop_true in Hab.
  destruct (id_loop a senderID), (id_loop b senderID); try reflexivity;
    [symmetry|]; tauto.
Qed.

(** X11: on an update with a sender (a Message or a CallbackQuery whose
    [From] is set) [Whitelist(IDs...)] returns true exactly when the id of
    the sender is among the IDs, and [Blacklist(IDs...)] returns the
    opposite. *)
Theorem Whitelist_matches_sender (IDs : list Z) (h : Heap) (update : Update) (id : Z) :
  sender update = Some id ->
  exists b, Check (Whitelist IDs) h update = Return b
            /\ Check (Blacklist IDs) h update = Return (negb b)
            /\ (b = true <-> id ∈ IDs).
Proof.
  intros Hs. destruct (Whitelist_sender IDs h update id Hs) as (b & Hb & Hiff).
  exists b. split; [exact Hb|]. split; [|exact Hiff].
  unfold Blacklist. now rewrite Check_Not, Hb.
Qed.

Lemma Whitelist_matches_sender_witness :
  exists b, Check (Whitelist [1; 2; 3]) ∅ (message_from "hi" 2) = Return b
            /\ Check (Blacklist [1; 2; 3]) ∅ (message_from "hi" 2) = Return (negb b)
            /\ (b = true <-> 2 ∈ [1; 2; 3]).
Proof.
  apply (Whitelist_matches_sender [1; 2; 3] ∅ (message_from "hi" 2) 2). reflexivity.
Defined.

(** X12: a whitelist of two lists put together is the [Or] of the two
    whitelists, and a blacklist of them is the [And] of the two blacklists,
    outcome for outcome (the panic on a CallbackQuery without [From]
    included). *)
Theorem Whitelist_app (a b : list Z) (h : Heap) (update : Update) :
  Check (Whitelist (a ++ b)) h update = Check (Or [Whitelist a; Whitelist b]) h update
  /\ Check (Blacklist (a ++ b)) h update
     = Check (And [Blacklist a; Blacklist b]) h update.
Proof.
  unfold Blacklist.
  rewrite !Check_And_cons, !Check_Or_cons, !Check_Not, Check_And_nil, Check_Or_nil.
  rewrite !Check_Whitelist.
  destruct (ExtractUpdate update) as [m|c|q|k|]; try (split; reflexivity).
  - rewrite id_loop_app; simpl.
    destruct (id_loop a _), (id_loop b _); split; reflexivity.
  - destruct (CallbackQuery_From c) as [u|]; [|split; reflexivity].
    rewrite id_loop_app; simpl.
    destruct (id_loop a _), (id_loop b _); split; reflexivity.
Qed.

(** X13: only the set of the IDs matters to a whitelist and to a
    blacklist, not their order nor their repetitions. *)
Theorem Whitelist_same_ids (a b : list Z) (h : Heap) (update : Update) :
  (forall id, id ∈ a <-> id ∈ b) ->
  Check (Whitelist a) h update = Check (Whitelist b) h update
  /\ Check (Blacklist a) h update = Check (Blacklist b) h update.
Proof.
  intros Hab.
  assert (Hw : Check (Whitelist a) h update = Check (Whitelist b) h update).
  { rewrite !Check_Whitelist.
    destruct (ExtractUpdate update) as [m|c|q|k|]; try reflexivity.
    - now rewrite (id_loop_same a b).
    - destruct (CallbackQuery_From c); [|reflexivity].
      now rewrite (id_loop_same a b). }
  split; [exact Hw|]. unfold Blacklist. now rewrite !Check_Not, Hw.
Qed.

Lemma Whitelist_same_ids_witness :
  Check (Whitelist [3; 1; 3; 2]) ∅ (message_from "hi" 2)
  = Check (Whitelist [1; 2; 3]) ∅ (message_from "hi" 2)
  /\ Check (Blacklist [3; 1; 3; 2]) ∅ (message_from "hi" 2)
     = Check (Blacklist [1; 2; 3]) ∅ (message_from "hi" 2).
Proof.
  apply (Whitelist_same_ids [3; 1; 3; 2] [1; 2; 3] ∅ (message_from "hi" 2)).
  intros id. rewrite !elem_of_cons, !elem_of_nil. tauto.
Defined.

(** X14: a whitelist of no ID never returns true and a blacklist of no ID
    never returns false; on an update that is not a CallbackQuery without
    [From] they return false and true. *)
Theorem Whitelist_no_IDs (h : Heap) (update : Update) :
  (forall b, Check (Whitelist []) h update = Return b -> b = false)
  /\ (forall b, Check (Blacklist []) h update = Return b -> b = true)
  /\ ((forall data, ExtractUpdate update = PCallbackQuery data ->
                   CallbackQuery_From data <> None) ->
      Check (Whitelist []) h update = Return false
      /\ Check (Blacklist []) h update = Return true).
Proof.
  unfold Blacklist. rewrite Check_Not, Check_Whitelist.
  destruct (ExtractUpdate update) as [m|c|q|k|]; simpl;
    try (split; [|split]; [intros b0 [= <-] | intros b0 [= <-] | intros _; split];
         reflexivity).
  destruct (CallbackQuery_From c) as [u|] eqn:Hc; simpl.
  - split; [|split]; [intros b0 [= <-] | intros b0 [= <-] | intros _; split];
      reflexivity.
  - split; [|split]; [discriminate | discriminate |].
    intros Hfrom. destruct (Hfrom c eq_refl Hc).
Qed.

(** ** More on [Commands] *)

Lemma backing_slice_set (h : Heap) (s : Slice) (i : nat) (v : string) :
  backing (slice_set h s i v) s = <[(slice_off s + i)%nat := v]> (backing h s).
Proof.
  unfold backing, slice_set. rewrite lookup_alter_eq.
  destruct (h !! slice_arr s); reflexivity.
Qed.

(** [s[i] = v] changes the element [i] of the slice and no other. *)
Lemma slice_elems_slice_set (h : Heap) (s : Slice) (i : nat) (v : string) :
  slice_elems (slice_set h s i v) s = <[i := v]> (slice_elems h s).
Proof.
  unfold slice_elems. rewrite backing_slice_set.
  rewrite drop_insert_ge by lia.
  replace (slice_off s + i - slice_off s)%nat with i by lia.
  destruct (decide (i < slice_len s)%nat) as [Hi|Hi].
  - now rewrite take_insert_lt.
  - rewrite take_insert_ge by lia. symmetry. apply list_insert_ge.
    rewrite length_take. lia.
Qed.

Lemma ExtractUpdateText_Message (update : Update) (m : Message) :
  ExtractUpdate update = PMessage m -> ExtractUpdateText update = command_text m.
Proof. unfold ExtractUpdateText, command_text. now intros ->. Qed.

(** The four filters of a command, under [Or], compute the condition of
    the loop of [Commands]. *)
Lemma Or_command_filters (botUsername cmd : string) (h : Heap) (update : Update) :
  Check (Or (command_filters botUsername cmd)) h update
  = Return (cmd_matches (ExtractUpdateText update) cmd botUsername).
Proof.
  unfold command_filters, cmd_matches, Check, Or, Text, WithPrefix; simpl.
  destruct (ExtractUpdateText update =? cmd)%string; [reflexivity|].
  destruct (ExtractUpdateText update =? cmd +:+ botUsername)%string; [reflexivity|].
  destruct (HasPrefix (ExtractUpdateText update) (cmd +:+ " ")); [reflexivity|].
  destruct (HasPrefix (ExtractUpdateText update) ((cmd +:+ botUsername) +:+ " "));
    reflexivity.
Qed.

Lemma Or_command_filters_list (botUsername : string) (cmds : list string) (h : Heap)
    (update : Update) :
  Check (Or (concat (command_filters botUsername <$> cmds))) h update
  = Return (cmd_loop cmds (ExtractUpdateText update) botUsername).
Proof.
  induction cmds as [|cmd rest IH]; [reflexivity|].
  rewrite fmap_cons, concat_cons, Check_Or_app, Or_command_filters, IH; simpl.
  destruct (cmd_matches _ cmd botUsername); reflexivity.
Qed.

Section commands_more.

Variable ToLower : string -> string.

Lemma slice_ok_normalize (prefix : string) (cmds : Slice) (h : Heap) :
  slice_ok h cmds -> slice_ok (normalize ToLower prefix cmds h) cmds.
Proof.
  intros Hok. unfold slice_ok.
  rewrite backing_normalize, length_map_window by exact Hok. exact Hok.
Qed.

(** What the filter of [Commands] returns in a store, by the elements the
    slice holds there. *)
Lemma Commands_filter_spec (prefix botUsername : string) (cmds : Slice) (h h' : Heap)
    (update : Update) :
  exists b, Check (Commands ToLower prefix botUsername cmds h).2 h' update = Return b
    /\ (b = true <->
          exists m, ExtractUpdate update = PMessage m
            /\ exists cmd, cmd ∈ slice_elems h' cmds
                 /\ matches_command (command_text m) cmd (with_at botUsername)).
Proof.
  unfold Commands, Check; simpl. rewrite <- at_username_with_at.
  apply (Commands_check_spec ToLower).
Qed.

(** X15: a second [Commands] call on the same slice normalizes its entries
    again, over the first normalization; the filter of the first call keeps
    the slice, so from then on it matches the twice normalized commands
    (with the bot user name of the first call). *)
Theorem Commands_twice (p1 b1 p2 b2 : string) (cmds : Slice) (h : Heap) (update : Update) :
  slice_ok h cmds ->
  slice_elems
    (Commands ToLower p2 b2 cmds (Commands ToLower p1 b1 cmds h).1).1 cmds
  = (fun command => ToLower (p2 +:+ ToLower (p1 +:+ command))) <$> slice_elems h cmds
  /\ exists b,
       Check (Commands ToLower p1 b1 cmds h).2
             (Commands ToLower p2 b2 cmds (Commands ToLower p1 b1 cmds h).1).1 update
       = Return b
       /\ (b = true <->
             exists m, ExtractUpdate update = PMessage m
               /\ exists command, command ∈ slice_elems h cmds
                    /\ matches_command (command_text m)
                         (ToLower (p2 +:+ ToLower (p1 +:+ command))) (with_at b1)).
Proof.
  intros Hok.
  assert (Helems :
    slice_elems (Commands ToLower p2 b2 cmds (Commands ToLower p1 b1 cmds h).1).1 cmds
    = (fun command => ToLower (p2 +:+ ToLower (p1 +:+ command))) <$> slice_elems h cmds).
  { unfold Commands; simpl.
    rewrite slice_elems_normalize by now apply slice_ok_normalize.
    rewrite slice_elems_normalize by exact Hok.
    rewrite <- list_fmap_compose. reflexivity. }
  split; [exact Helems|].
  destruct (Commands_filter_spec p1 b1 cmds h
              (Commands ToLower p2 b2 cmds (Commands ToLower p1 b1 cmds h).1).1 update)
    as (b & Hb & Hiff).
  exists b. split; [exact Hb|]. rewrite Hiff, Helems.
  split; intros (m & Hm & Hc); exists m; (split; [exact Hm|]).
  - destruct Hc as (cmd & Hin & Hmatch).
    apply list_elem_of_fmap in Hin as (command & -> & Hin). eauto.
  - destruct Hc as (command & Hin & Hmatch).
    eexists. split; [|exact Hmatch].
    apply list_elem_of_fmap. eauto.
Qed.

(** X16: [Commands] called with no command leaves the store as it is, and
    its filter returns false on every update. *)
Theorem Commands_no_command (prefix botUsername : string) (cmds : Slice) (h : Heap) :
  slice_len cmds = 0%nat ->
  (Commands ToLower prefix botUsername cmds h).1 = h
  /\ forall h' update,
       Check (Commands ToLower prefix botUsername cmds h).2 h' update = Return false.
Proof.
  intros Hlen. split.
  - unfold Commands, normalize; simpl. now rewrite Hlen.
  - intros h' update.
    destruct (Commands_filter_spec prefix botUsername cmds h h' update)
      as (b & -> & Hiff).
    destruct b; [|reflexivity].
    destruct (proj1 Hiff eq_refl) as (m & _ & cmd & Hin & _).
    unfold slice_elems in Hin. rewrite Hlen, take_0 in Hin. inversion Hin.
Qed.

(** X17: the filter of [Commands] keeps the caller's slice.  When the
    caller overwrites the entry [cmds[i]] with [v] after the call, the
    filter matches the commands of the slice as it then is: [v] at [i], the
    normalized commands elsewhere. *)
Theorem Commands_follows_writes (prefix botUsername : string) (cmds : Slice) (h : Heap)
    (i : nat) (v : string) (update : Update) :
  slice_ok h cmds ->
  (i < slice_len cmds)%nat ->
  exists b,
    Check (Commands ToLower prefix botUsername cmds h).2
          (slice_set (Commands ToLower prefix botUsername cmds h).1 cmds i v) update
    = Return b
    /\ (b = true <->
          exists m, ExtractUpdate update = PMessage m
            /\ exists cmd,
                 cmd ∈ <[i := v]>
                         ((fun command => ToLower (prefix +:+ command))
                            <$> slice_elems h cmds)
                 /\ matches_command (command_text m) cmd (with_at botUsername)).
Proof.
  intros Hok _.
  destruct (Commands_filter_spec prefix botUsername cmds h
              (slice_set (Commands ToLower prefix botUsername cmds h).1 cmds i v) update)
    as (b & Hb & Hiff).
  exists b. split; [exact Hb|]. rewrite Hiff, slice_elems_slice_set.
  unfold Commands at 1; simpl. rewrite slice_elems_normalize by exact Hok.
  reflexivity.
Qed.

(** X18: on a Message, the filter of [Commands] has the outcome of the
    [Or] of the text filters of its normalized commands: for each command
    [Text(cmd)], [Text(cmd+botUsername)], [WithPrefix(cmd+" ")] and
    [WithPrefix(cmd+botUsername+" ")], the bot user name with its "@". *)
Theorem Commands_as_text_filters (prefix botUsername : string) (cmds : Slice) (h : Heap)
    (update : Update) :
  slice_ok h cmds ->
  is_Message update ->
  Check (Commands ToLower prefix botUsername cmds h).2
        (Commands ToLower prefix botUsername cmds h).1 update
  = Check (Or (concat (command_filters (with_at botUsername)
                         <$> ((fun command => ToLower (prefix +:+ command))
                                <$> slice_elems h cmds))))
          (Commands ToLower prefix botUsername cmds h).1 update.
Proof.
  intros Hok [m Hm]. rewrite Or_command_filters_list.
  unfold Commands, Check; simpl. unfold Commands_check.
  rewrite Hm, (ExtractUpdateText_Message update m Hm).
  rewrite slice_elems_normalize by exact Hok.
  rewrite at_username_with_at. fold (command_text m).
  unfold normalized. destruct (cmd_loop _ _ _); reflexivity.
Qed.

(** X19: the case of a configured command name does not matter: two names
    with the same normalized form give filters with the same outcome on
    every update. *)
Theorem Command_name_case (n1 n2 botUsername : string) (h1 h2 : Heap) (update : Update) :
  ToLower ("/" +:+ n1) = ToLower ("/" +:+ n2) ->
  Check (Command ToLower n1 botUsername h1).2
        (Command ToLower n1 botUsername h1).1 update
  = Check (Command ToLower n2 botUsername h2).2
          (Command ToLower n2 botUsername h2).1 update.
Proof.
  intros Hn.
  destruct (variadic_slice [n1] h1) as (Hok1 & He1 & _).
  destruct (variadic_slice [n2] h2) as (Hok2 & He2 & _).
  unfold Command.
  destruct (variadic [n1] h1) as [h1' s1]; destruct (variadic [n2] h2) as [h2' s2].
  simpl in *. unfold Check; simpl. apply Commands_check_elems.
  rewrite !slice_elems_normalize by assumption.
  rewrite He1, He2; simpl. unfold normalized. now rewrite Hn.
Qed.

(** X20: a bot user name may be given with or without its "@": for a name
    that does not start with "@", [Commands] with the name and [Commands]
    with "@" put before it leave the same store and build filters with the
    same outcome on every update, in every store. *)
Theorem Commands_botUsername_at (prefix botUsername : string) (cmds : Slice) (h : Heap) :
  ~ starts_with botUsername "@" ->
  (Commands ToLower prefix botUsername cmds h).1
  = (Commands ToLower prefix ("@" +:+ botUsername) cmds h).1
  /\ forall h' update,
       Check (Commands ToLower prefix botUsername cmds h).2 h' update
       = Check (Commands ToLower prefix ("@" +:+ botUsername) cmds h).2 h' update.
Proof.
  intros Hno. split; [reflexivity|]. intros h' update.
  unfold Commands, Check; simpl.
  rewrite (proj2 (at_username_spec botUsername) Hno).
  rewrite (proj1 (at_username_spec ("@" +:+ botUsername))); [reflexivity|].
  now exists botUsername.
Qed.

End commands_more.

(** ** More commands at work, on ASCII text *)

Lemma Commands_twice_witness :
  slice_elems
    (Commands ascii_ToLower "/" "bot" sample_cmds
       (Commands ascii_ToLower "/" "mybot" sample_cmds sample_store).1).1 sample_cmds
  = ["//start"; "//help"].
Proof.
  assert (Hok : slice_ok sample_store sample_cmds) by (vm_compute; lia).
  rewrite (proj1 (Commands_twice ascii_ToLower "/" "mybot" "/" "bot"
                    sample_cmds sample_store (message_from "//start" 2) Hok)).
  reflexivity.
Defined.

(** After the second call the first filter no longer matches "/start". *)
Example Commands_twice_first_filter :
  let '(h1, f1) := Commands ascii_ToLower "/" "mybot" sample_cmds sample_store in
  let '(h2, f2) := Commands ascii_ToLower "/" "bot" sample_cmds h1 in
  Check f1 h1 (message_from "/start" 2) = Return true
  /\ Check f1 h2 (message_from "/start" 2) = Return false
  /\ Check f1 h2 (message_from "//start@mybot" 2) = Return true.
Proof. vm_compute. repeat split. Qed.

Lemma Commands_no_command_witness :
  (Commands ascii_ToLower "/" "mybot" (mkSlice 1%positive 0 0) sample_store).1
  = sample_store
  /\ forall h' update,
       Check (Commands ascii_ToLower "/" "mybot" (mkSlice 1%positive 0 0) sample_store).2
             h' update = Return false.
Proof.
  apply (Commands_no_command ascii_ToLower "/" "mybot" (mkSlice 1%positive 0 0)
           sample_store).
  reflexivity.
Defined.

Lemma Commands_follows_writes_witness :
  exists b,
    Check (Commands ascii_ToLower "/" "mybot" sample_cmds sample_store).2
          (slice_set (Commands ascii_ToLower "/" "mybot" sample_cmds sample_store).1
             sample_cmds 0 "/stop")
          (message_from "/stop" 2)
    = Return b
    /\ (b = true <->
          exists m, ExtractUpdate (message_from "/stop" 2) = PMessage m
            /\ exists cmd,
                 cmd ∈ <[0%nat := "/stop"]>
                         ((fun command => ascii_ToLower ("/" +:+ command))
                            <$> slice_elems sample_store sample_cmds)
                 /\ matches_command (command_text m) cmd (with_at "mybot")).
Proof.
  apply (Commands_follows_writes ascii_ToLower "/" "mybot" sample_cmds sample_store
           0 "/stop" (message_from "/stop" 2)).
  - vm_compute; lia.
  - vm_compute; lia.
Defined.

Lemma Commands_as_text_filters_witness :
  Check (Commands ascii_ToLower "/" "mybot" sample_cmds sample_store).2
        (Commands ascii_ToLower "/" "mybot" sample_cmds sample_store).1
        (message_from "/help me" 2)
  = Check (Or (concat (command_filters (with_at "mybot")
                         <$> ((fun command => ascii_ToLower ("/" +:+ command))
                                <$> slice_elems sample_store sample_cmds))))
          (Commands ascii_ToLower "/" "mybot" sample_cmds sample_store).1
          (message_from "/help me" 2).
Proof.
  apply (Commands_as_text_filters ascii_ToLower "/" "mybot" sample_cmds sample_store
           (message_from "/help me" 2)).
  - vm_compute; lia.
  - eexists; reflexivity.
Defined.

(** On a CallbackQuery the two differ: the text filters read its data, the
    filter of [Commands] reads messages only. *)
Example Commands_not_text_filters_on_callback :
  let update := UpdateCallbackQuery (mkCallbackQuery "/start" (Some (mkUser 2))) in
  let '(h, flt) := Commands ascii_ToLower "/" "mybot" sample_cmds sample_store in
  Check flt h update = Return false
  /\ Check (Or (command_filters "@mybot" "/start")) h update = Return true.
Proof. vm_compute. split; reflexivity. Qed.

Lemma Command_name_case_witness :
  Check (Command ascii_ToLower "Start" "mybot" ∅).2
        (Command ascii_ToLower "Start" "mybot" ∅).1 (message_from "/start" 2)
  = Check (Command ascii_ToLower "START" "mybot" sample_store).2
          (Command ascii_ToLower "START" "mybot" sample_store).1
          (message_from "/start" 2).
Proof.
  apply (Command_name_case ascii_ToLower "Start" "START" "mybot" ∅ sample_store
           (message_from "/start" 2)).
  reflexivity.
Defined.

Lemma Commands_botUsername_at_witness :
  (Commands ascii_ToLower "/" "mybot" sample_cmds sample_store).1
  = (Commands ascii_ToLower "/" ("@" +:+ "mybot") sample_cmds sample_store).1
  /\ forall h' update,
       Check (Commands ascii_ToLower "/" "mybot" sample_cmds sample_store).2 h' update
       = Check (Commands ascii_ToLower "/" ("@" +:+ "mybot") sample_cmds sample_store).2
               h' update.
Proof.
  apply (Commands_botUsername_at ascii_ToLower "/" "mybot" sample_cmds sample_store).
  intros [rest Hrest]. discriminate Hrest.
Defined.
